(** * SchedulerUtils: connection handles and the integer reducers

    A shallow embedding of
    [services/surfaceflinger/Scheduler/SchedulerUtils.h]:
    the [ConnectionHandle] value type with its equality and hash, and the
    reducers [calculate_mean], [calculate_median] and [calculate_mode] over
    vectors of [int64_t] samples.

    Conventions of the embedding.
    - A machine integer is a [Z]; an arithmetic result that leaves the range
      of its type is reduced to the two's-complement value the target
      produces ([wrap64], [wrap32], [to_uintptr]).
    - A [std::vector<int64_t>] is a [list Z]. [int64_vector] says that the
      elements are 64-bit values and that the length is one a vector can
      have.
    - An operation without a result (division by zero, dereferencing the
      past-the-end iterator) yields [Undefined] with the fault.
    - The iteration order of the [std::unordered_map] of [calculate_mode]
      is that of the C++ library, not of this header: what holds of the
      mode in general is proved for every order a container may have
      ([MapOrder], [Lawful]); [link_gnu] is the order of the chained table
      of the GNU C++ library. *)

From Stdlib Require Import ZArith Lia.
From stdpp Require Import base tactics option list sorting.

Local Open Scope Z_scope.

(** ** Machine integers *)

Definition int64_min : Z := - 2 ^ 63.
Definition int64_max : Z := 2 ^ 63 - 1.
Definition int32_min : Z := - 2 ^ 31.
Definition int32_max : Z := 2 ^ 31 - 1.

Definition in_int64 (z : Z) : Prop := int64_min <= z <= int64_max.
Definition in_int32 (z : Z) : Prop := int32_min <= z <= int32_max.

(** Reduction into [int64_t]. *)
Definition wrap64 (z : Z) : Z := (z + 2 ^ 63) mod 2 ^ 64 - 2 ^ 63.

(** Reduction into [int]; this is [static_cast<int>] on an [int64_t]. *)
Definition wrap32 (z : Z) : Z := (z + 2 ^ 31) mod 2 ^ 32 - 2 ^ 31.

(** Reduction into [std::uintptr_t] (64-bit target). *)
Definition to_uintptr (z : Z) : Z := z mod 2 ^ 64.

(** The largest size of a [std::vector<int64_t>] on a 64-bit target. *)
Definition vector_max_size : Z := 2 ^ 61 - 1.

Definition int64_vector (v : list Z) : Prop :=
  Forall in_int64 v ∧ Z.of_nat (length v) <= vector_max_size.

Inductive fault : Type :=
  | DivisionByZero
  | PastTheEnd.

Inductive outcome (A : Type) : Type :=
  | Value (a : A)
  | Undefined (f : fault).

Arguments Value {A} a.
Arguments Undefined {A} f.

(** [a + b] on [int64_t]. *)
Definition add64 (a b : Z) : Z := wrap64 (a + b).

(** [a / b] on [int64_t]: the quotient truncated toward zero. *)
Definition div64 (a b : Z) : outcome Z :=
  if b =? 0 then Undefined DivisionByZero else Value (wrap64 (a ÷ b)).

(** ** ConnectionHandle *)

Module ConnectionHandle.

(** [using Id = std::uintptr_t; Id id = INVALID_ID;] *)
Record t : Type := Build { id : Z }.

Definition INVALID_ID : Z := to_uintptr (-1).

(** Default member initializer: [ConnectionHandle()]. *)
Definition default : t := {| id := INVALID_ID |}.

(** [explicit operator bool() const] *)
Definition to_bool (h : t) : bool := negb (id h =? INVALID_ID).

(** [operator==(ConnectionHandle lhs, ConnectionHandle rhs)] *)
Definition eqb (lhs rhs : t) : bool := id lhs =? id rhs.

Section Hash.
(** [std::hash<std::uintptr_t>], the library's hash of the id type. *)
Variable hash_Id : Z → Z.

(** [std::hash<ConnectionHandle>::operator()] *)
Definition hash (handle : t) : Z := hash_Id (id handle).
End Hash.

End ConnectionHandle.

(** ** calculate_mean *)

(** [std::accumulate(first, last, init)] with [operator+] on [int64_t]. *)
Definition accumulate (v : list Z) (init : Z) : Z := fold_left add64 v init.

(** [static_cast<V>(v.size())] *)
Definition size_as_V (v : list Z) : Z := wrap64 (Z.of_nat (length v)).

Definition calculate_mean (v : list Z) : outcome Z :=
  let sum := accumulate v (wrap64 0) in
  div64 sum (size_as_V v).

(** The sum of the elements as a mathematical integer. *)
Definition sum_list (v : list Z) : Z := foldr Z.add 0 v.

(** ** calculate_mode *)

(** The frequency map [std::unordered_map<int64_t, int> counts] is
    represented by its entries in iteration order, from [begin()] to
    [end()]. The header does not say what that order is: it belongs to the
    container of the C++ library the program is built with. A [MapOrder]
    gives where the container puts a new entry, with the rearrangement of
    the others that its growth may bring. Updating the count of a key
    already present leaves the order as it is. *)
Class MapOrder : Type := { link : Z * Z → list (Z * Z) → list (Z * Z) }.

(** What every container guarantees: after the insertion the entries are
    the new one and those that were there. *)
Class Lawful (O : MapOrder) : Prop :=
  link_perm : ∀ entry m, link entry m ≡ₚ entry :: m.

(** Two plain orders, of no library in particular, on which the facts that
    hold for every lawful order can be tried: each new entry first, and
    each new entry last. *)
Definition link_front : MapOrder := {| link := cons |}.

Definition link_back : MapOrder := {| link := λ entry m, m ++ [entry] |}.

(** [std::hash<int64_t>]: the key converted to [size_t]. *)
Definition hash_key (key : Z) : Z := to_uintptr key.

(** The node list of a chained hash table with [buckets] buckets: the
    nodes of one bucket are adjacent; a new node goes to the head of its
    bucket's chain, or to the head of the node list when the bucket is
    empty. *)
Fixpoint link_chain (buckets : Z) (entry : Z * Z) (m : list (Z * Z))
    : option (list (Z * Z)) :=
  match m with
  | [] => None
  | e :: m' =>
      if hash_key (fst e) mod buckets =? hash_key (fst entry) mod buckets
      then Some (entry :: e :: m')
      else cons e <$> link_chain buckets entry m'
  end.

Definition link_bucket (buckets : Z) (entry : Z * Z) (m : list (Z * Z))
    : list (Z * Z) :=
  default (entry :: m) (link_chain buckets entry m).

(** A table that keeps its number of buckets: the order of a chained table
    between two growths. *)
Definition link_hashed (buckets : Z) : MapOrder := {| link := link_bucket buckets |}.

(** Growth of a chained table: every node, in iteration order, is linked
    anew into the table of [buckets] buckets. *)
Definition rehash (buckets : Z) (m : list (Z * Z)) : list (Z * Z) :=
  fold_left (λ linked e, link_bucket buckets e linked) m [].

(** The number of buckets of a table that holds [n] keys, with maximal load
    factor one: the first of the successive [sizes] that is at least [n]. *)
Fixpoint buckets_for (sizes : list Z) (n : nat) : Z :=
  match sizes with
  | [] => 1
  | [b] => b
  | b :: rest => if Z.of_nat n <=? b then b else buckets_for rest n
  end.

(** Insertion into a table that grows: when the new key exceeds what the
    buckets hold, the table is rehashed to the next size, then the new node
    is linked. *)
Definition link_growing (sizes : list Z) (entry : Z * Z) (m : list (Z * Z))
    : list (Z * Z) :=
  let before := buckets_for sizes (length m) in
  let after := buckets_for sizes (S (length m)) in
  link_bucket after entry (if before =? after then m else rehash after m).

Definition link_table (sizes : list Z) : MapOrder := {| link := link_growing sizes |}.

(** The table of the GNU C++ library ([libstdc++]): thirteen buckets from
    the first insertion on, then the next of these sizes each time the
    number of keys exceeds the number of buckets. The sizes listed cover
    maps of up to 1109 keys. *)
Definition gnu_sizes : list Z := [13; 29; 59; 127; 257; 541; 1109].

Definition link_gnu : MapOrder := link_table gnu_sizes.

(** [counts.find(key) != counts.end()] *)
Definition has_key (key : Z) (m : list (Z * Z)) : bool :=
  existsb (λ entry, fst entry =? key) m.

(** [counts[key]]: an absent key is inserted with the count [0]. *)
Definition subscript {O : MapOrder} (key : Z) (m : list (Z * Z)) : list (Z * Z) :=
  if has_key key m then m else link (key, 0) m.

(** [++] on the [int] count of [key]. *)
Fixpoint increment (key : Z) (m : list (Z * Z)) : list (Z * Z) :=
  match m with
  | [] => []
  | (k, c) :: m' =>
      if k =? key then (k, wrap32 (c + 1)) :: m' else (k, c) :: increment key m'
  end.

(** [counts[value]++] *)
Definition count_value {O : MapOrder} (m : list (Z * Z)) (value : Z) : list (Z * Z) :=
  increment value (subscript value m).

(** [for (int64_t value : v) { counts[value]++; }] *)
Definition count_values {O : MapOrder} (v : list Z) : list (Z * Z) :=
  fold_left count_value v [].

(** [std::max_element(first, last, comp)]: [None] is the iterator [last]. *)
Fixpoint max_element_from {A : Type} (comp : A → A → bool) (largest : A) (l : list A) : A :=
  match l with
  | [] => largest
  | x :: l' => max_element_from comp (if comp largest x then x else largest) l'
  end.

Definition max_element {A : Type} (comp : A → A → bool) (l : list A) : option A :=
  match l with
  | [] => None
  | x :: l' => Some (max_element_from comp x l')
  end.

(** [[](ValueType l, ValueType r) { return l.second <= r.second; }] *)
Definition compareCounts (l r : Z * Z) : bool := snd l <=? snd r.

(** [static_cast<int>(std::max_element(...)->first)] *)
Definition mode_of_counts (counts : list (Z * Z)) : outcome Z :=
  match max_element compareCounts counts with
  | Some entry => Value (wrap32 (fst entry))
  | None => Undefined PastTheEnd
  end.

(** Both [return] statements have type [int], which is the deduced return
    type. *)
Definition calculate_mode {O : MapOrder} (v : list Z) : outcome Z :=
  match v with
  | [] => Value 0
  | _ :: _ => mode_of_counts (count_values v)
  end.

(** The number of occurrences of [x] in [v]. *)
Definition occurrences (x : Z) (v : list Z) : Z :=
  Z.of_nat (length (filter (λ y, y = x) v)).

(** The counts are [int]s: they are exact while the vector has at most
    [int32_max] elements. *)
Definition counts_fit (v : list Z) : Prop := Z.of_nat (length v) <= int32_max.

(** ** calculate_median *)

(** Modelled from the spec: [calculate_median] is declared in this header
    and defined in [SchedulerUtils.cpp], which is not part of the sources at
    hand. The spec asks for a partial reordering that puts at index [n] the
    value a full sort would put there, without sorting the whole sequence;
    [nth_element] does it by selection around a pivot: the samples below the
    pivot, the pivot, the others, continuing in the part that holds index
    [n]. *)
Fixpoint select (fuel n : nat) (v : list Z) : list Z :=
  match fuel, v with
  | S fuel', pivot :: rest =>
      let lower := filter (λ x, x < pivot) rest in
      let upper := filter (λ x, ¬ x < pivot) rest in
      match Nat.compare n (length lower) with
      | Lt => select fuel' n lower ++ pivot :: upper
      | Eq => lower ++ pivot :: upper
      | Gt => lower ++ pivot :: select fuel' (n - S (length lower)) upper
      end
  | _, _ => v
  end.

(** Modelled from the spec: the partial reordering of the whole vector
    around index [n]. *)
Definition nth_element (n : nat) (v : list Z) : list Z := select (length v) n v.

(** A sequence split around [x], with nothing larger before and nothing
    smaller after. *)
Definition split_at (n : nat) (x : Z) (r : list Z) : Prop :=
  ∃ a b, r = a ++ x :: b ∧ length a = n
         ∧ (∀ y, y ∈ a → y <= x) ∧ (∀ y, y ∈ b → x <= y).

(** Modelled from the spec: [calculate_median(std::vector<int64_t>* v)];
    the result is paired with the contents of [*v] after the call. Empty
    input gives [0]; otherwise the element at index [n / 2] after the
    partial reordering. *)
Definition calculate_median (v : list Z) : Z * list Z :=
  match v with
  | [] => (0, [])
  | _ :: _ =>
      let n := (length v / 2)%nat in
      let v' := nth_element n v in
      (default 0 (v' !! n), v')
  end.

(** ** The reducers on the caller's vector *)

(** [calculate_mean] and [calculate_mode] take [const T&], so they reach
    the caller's vector through [size()] and by reading its elements in
    order. A computation of [reader A] runs on the contents of the vector
    and returns its result with the contents it leaves. *)
Module ByRef.

Definition reader (A : Type) : Type := list Z → A * list Z.

Definition ret {A : Type} (a : A) : reader A := λ s, (a, s).

Definition bind {A B : Type} (m : reader A) (k : A → reader B) : reader B :=
  λ s, let (a, s') := m s in k a s'.

(** [v.size()] *)
Definition size : reader nat := λ s, (length s, s).

(** [v.empty()] *)
Definition empty : reader bool := λ s, (bool_decide (s = []), s).

(** [*(v.begin() + i)] *)
Definition get (i : nat) : reader (option Z) := λ s, (s !! i, s).

(** The traversal of [n] elements from index [i] on, folding [step]. *)
Fixpoint traverse {A : Type} (step : A → Z → A) (i n : nat) (acc : A) : reader A :=
  match n with
  | O => ret acc
  | S n' =>
      bind (get i) (λ x,
        match x with
        | Some value => traverse step (S i) n' (step acc value)
        | None => ret acc
        end)
  end.

(** From [v.begin()] to [v.end()]. *)
Definition for_each {A : Type} (step : A → Z → A) (init : A) : reader A :=
  bind size (λ n, traverse step 0 n init).

Definition calculate_mean : reader (outcome Z) :=
  bind (for_each add64 (wrap64 0)) (λ sum,
  bind size (λ n,
  ret (div64 sum (wrap64 (Z.of_nat n))))).

Definition calculate_mode {O : MapOrder} : reader (outcome Z) :=
  bind empty (λ is_empty,
    if is_empty then ret (Value 0)
    else bind (for_each count_value []) (λ counts, ret (mode_of_counts counts))).

End ByRef.

(** ** Facts on machine integers *)

Lemma wrap64_id z : in_int64 z → wrap64 z = z.
Proof.
  unfold in_int64, int64_min, int64_max, wrap64. intros H.
  rewrite Z.mod_small; lia.
Qed.

Lemma wrap64_range z : in_int64 (wrap64 z).
Proof.
  unfold in_int64, int64_min, int64_max, wrap64.
  pose proof (Z.mod_pos_bound (z + 2 ^ 63) (2 ^ 64)). lia.
Qed.

Lemma wrap64_add_l a b : wrap64 (wrap64 a + b) = wrap64 (a + b).
Proof.
  unfold wrap64. f_equal.
  replace ((a + 2 ^ 63) mod 2 ^ 64 - 2 ^ 63 + b + 2 ^ 63)
    with ((a + 2 ^ 63) mod 2 ^ 64 + b) by lia.
  rewrite Zplus_mod_idemp_l. f_equal. lia.
Qed.

Lemma wrap32_id z : in_int32 z → wrap32 z = z.
Proof.
  unfold in_int32, int32_min, int32_max, wrap32. intros H.
  rewrite Z.mod_small; lia.
Qed.

Lemma wrap32_range z : in_int32 (wrap32 z).
Proof.
  unfold in_int32, int32_min, int32_max, wrap32.
  pose proof (Z.mod_pos_bound (z + 2 ^ 31) (2 ^ 32)). lia.
Qed.

Lemma quot_in_int64 s n : in_int64 s → 1 <= n → in_int64 (s ÷ n).
Proof.
  unfold in_int64, int64_min, int64_max. intros Hs Hn.
  destruct (Z.le_gt_cases 0 s) as [Hpos|Hneg].
  - pose proof (Z.quot_pos s n Hpos ltac:(lia)).
    assert (s ÷ n <= s) by (apply Z.quot_le_upper_bound; nia). lia.
  - assert (Hopp : s ÷ n = - ((- s) ÷ n)).
    { rewrite Z.quot_opp_l by lia. lia. }
    pose proof (Z.quot_pos (- s) n ltac:(lia) ltac:(lia)).
    assert ((- s) ÷ n <= - s) by (apply Z.quot_le_upper_bound; nia). lia.
Qed.

(** ** Facts on calculate_mean *)

Lemma accumulate_wrap v init :
  accumulate v (wrap64 init) = wrap64 (init + sum_list v).
Proof.
  unfold accumulate. revert init.
  induction v as [|x v IH]; intros init; simpl.
  - f_equal. lia.
  - unfold add64 at 2. rewrite wrap64_add_l, IH. f_equal. lia.
Qed.

Lemma size_as_V_length v :
  Z.of_nat (length v) <= vector_max_size → size_as_V v = Z.of_nat (length v).
Proof.
  unfold vector_max_size, size_as_V. intros H.
  apply wrap64_id. unfold in_int64, int64_min, int64_max. lia.
Qed.

Lemma sum_list_replicate n k : sum_list (replicate n k) = Z.of_nat n * k.
Proof.
  unfold sum_list. induction n as [|n IH]; simpl replicate; simpl foldr.
  - lia.
  - rewrite IH. lia.
Qed.

Lemma calculate_mean_value v :
  int64_vector v → v ≠ [] →
  calculate_mean v = Value (wrap64 (sum_list v) ÷ Z.of_nat (length v)).
Proof.
  intros [_ Hsize] Hne. unfold calculate_mean.
  rewrite accumulate_wrap, Z.add_0_l, (size_as_V_length v Hsize).
  assert (1 <= Z.of_nat (length v)) as Hlen.
  { destruct v; [done | simpl; lia]. }
  unfold div64. destruct (Z.eqb_spec (Z.of_nat (length v)) 0) as [H0|_]; [lia|].
  f_equal. apply wrap64_id, quot_in_int64; [apply wrap64_range | done].
Qed.

(** ** The scenarios of the specification *)

Example mean_of_three : calculate_mean [10; 20; 30] = Value 20.
Proof. reflexivity. Qed.

Example mean_truncates : calculate_mean [1; 2] = Value 1.
Proof. reflexivity. Qed.

Example median_of_none : calculate_median [] = (0, []).
Proof. reflexivity. Qed.

Example median_of_three : calculate_median [3; 1; 2] = (2, [1; 2; 3]).
Proof. reflexivity. Qed.

Example median_of_four : (calculate_median [1; 2; 3; 4]).1 = 3.
Proof. reflexivity. Qed.

Example mode_of_none : calculate_mode (O := link_gnu) [] = Value 0.
Proof. reflexivity. Qed.

Example mode_of_five : calculate_mode (O := link_gnu) [5; 5; 7; 7; 9] = Value 5.
Proof. reflexivity. Qed.

Example handle_equal :
  ConnectionHandle.eqb (ConnectionHandle.Build 42) (ConnectionHandle.Build 42) = true
  ∧ ConnectionHandle.to_bool ConnectionHandle.default = false
  ∧ ConnectionHandle.to_bool (ConnectionHandle.Build 42) = true.
Proof. split_and!; reflexivity. Qed.

(** ** Claims on calculate_mean *)

(** C4. On a non-empty vector of 64-bit samples, [calculate_mean] returns
    the sum of the elements, taken in the 64-bit domain of the elements,
    divided by the number of elements with truncation toward zero; when the
    sum of the elements is itself a 64-bit value, this is the truncated
    quotient of the arithmetic sum by the count. *)
Theorem calculate_mean_truncated_quotient (v : list Z) :
  int64_vector v → v ≠ [] →
  calculate_mean v = Value (wrap64 (sum_list v) ÷ Z.of_nat (length v))
  ∧ (in_int64 (sum_list v) →
     calculate_mean v = Value (sum_list v ÷ Z.of_nat (length v))).
Proof.
  intros Hv Hne. split.
  - by apply calculate_mean_value.
  - intros Hsum. rewrite (calculate_mean_value v Hv Hne).
    by rewrite (wrap64_id _ Hsum).
Qed.

Lemma calculate_mean_truncated_quotient_witness :
  calculate_mean [1; 2] = Value 1 ∧ calculate_mean [-7; 2] = Value (-2).
Proof.
  split.
  - destruct (calculate_mean_truncated_quotient [1; 2]) as [_ H].
    + split; [repeat constructor; vm_compute; discriminate | vm_compute; discriminate].
    + discriminate.
    + rewrite H; [reflexivity | vm_compute; split; discriminate].
  - destruct (calculate_mean_truncated_quotient [-7; 2]) as [_ H].
    + split; [repeat constructor; vm_compute; discriminate | vm_compute; discriminate].
    + discriminate.
    + rewrite H; [reflexivity | vm_compute; split; discriminate].
Defined.

(** C10. The divisor of the one division in [calculate_mean] is the length
    of the vector: on a non-empty vector it is not zero and the division
    yields a value; on the empty vector the division is a division by
    zero. *)
Theorem calculate_mean_divisor (v : list Z) :
  (int64_vector v → v ≠ [] →
   calculate_mean v = div64 (accumulate v (wrap64 0)) (Z.of_nat (length v))
   ∧ Z.of_nat (length v) ≠ 0
   ∧ ∃ q, calculate_mean v = Value q)
  ∧ (v = [] → calculate_mean v = Undefined DivisionByZero).
Proof.
  split.
  - intros Hv Hne. split; [|split].
    + unfold calculate_mean. by rewrite (size_as_V_length v (proj2 Hv)).
    + destruct v; [done | simpl; lia].
    + eexists. by apply calculate_mean_value.
  - by intros ->.
Qed.

Lemma calculate_mean_divisor_witness :
  (∃ q, calculate_mean [10; 20; 30] = Value q)
  ∧ calculate_mean [] = Undefined DivisionByZero.
Proof.
  split.
  - destruct (calculate_mean_divisor [10; 20; 30]) as [H _].
    apply H; [|discriminate].
    split; [repeat constructor; vm_compute; discriminate | vm_compute; discriminate].
  - destruct (calculate_mean_divisor []) as [_ H]. by apply H.
Defined.

(** C7, as the spec states it, fails: two samples of [2 ^ 62] sum to
    [2 ^ 63], which is not a 64-bit value, and the mean computed is
    [- 2 ^ 62]. *)
Lemma calculate_mean_constant_counterexample :
  in_int64 (2 ^ 62)
  ∧ calculate_mean (replicate 2 (2 ^ 62)) = Value (- 2 ^ 62)
  ∧ calculate_mean (replicate 2 (2 ^ 62)) ≠ Value (2 ^ 62).
Proof.
  split; [|split].
  - vm_compute. split; discriminate.
  - vm_compute. reflexivity.
  - vm_compute. discriminate.
Qed.

(** C7, amended. For a 64-bit [k] and a vector of [n >= 1] samples all equal
    to [k], [calculate_mean] returns [k] provided [n * k], the sum of the
    samples, is a 64-bit value. *)
Theorem calculate_mean_constant (k : Z) (n : nat) :
  (0 < n)%nat → Z.of_nat n <= vector_max_size →
  in_int64 k → in_int64 (Z.of_nat n * k) →
  calculate_mean (replicate n k) = Value k.
Proof.
  intros Hn Hsize Hk Hsum.
  rewrite calculate_mean_value.
  - rewrite sum_list_replicate, (wrap64_id _ Hsum), length_replicate.
    f_equal. rewrite Z.mul_comm. apply Z.quot_mul. lia.
  - split; [by apply Forall_replicate | by rewrite length_replicate].
  - destruct n; [lia | done].
Qed.

Lemma calculate_mean_constant_witness :
  calculate_mean (replicate 3 16666666) = Value 16666666.
Proof.
  apply calculate_mean_constant.
  - lia.
  - vm_compute. discriminate.
  - vm_compute. split; discriminate.
  - vm_compute. split; discriminate.
Defined.

(** ** Claims on ConnectionHandle *)

(** C5. Two handles are equal exactly when their ids are equal, and equal
    handles have equal hashes, whatever the library's hash of the id type
    is. *)
Theorem connection_handle_eq_hash (hash_Id : Z → Z) (a b : ConnectionHandle.t) :
  (ConnectionHandle.eqb a b = true ↔ ConnectionHandle.id a = ConnectionHandle.id b)
  ∧ (ConnectionHandle.eqb a b = true →
     ConnectionHandle.hash hash_Id a = ConnectionHandle.hash hash_Id b).
Proof.
  unfold ConnectionHandle.eqb, ConnectionHandle.hash.
  split.
  - apply Z.eqb_eq.
  - intros Heq%Z.eqb_eq. by rewrite Heq.
Qed.

Lemma connection_handle_eq_hash_witness :
  ConnectionHandle.hash (λ i, i mod 1024) (ConnectionHandle.Build 42)
  = ConnectionHandle.hash (λ i, i mod 1024) (ConnectionHandle.Build 42).
Proof.
  apply (connection_handle_eq_hash (λ i, i mod 1024)
           (ConnectionHandle.Build 42) (ConnectionHandle.Build 42)).
  reflexivity.
Defined.

(** ** Facts on the frequency map *)

Global Instance link_front_lawful : Lawful link_front.
Proof. by intros entry m. Qed.

Global Instance link_back_lawful : Lawful link_back.
Proof. intros entry m. symmetry. apply Permutation_cons_append. Qed.

Lemma link_chain_perm buckets entry m m' :
  link_chain buckets entry m = Some m' → m' ≡ₚ entry :: m.
Proof.
  revert m'. induction m as [|e m IH]; intros m' Hm; simpl in Hm.
  - discriminate.
  - destruct (hash_key (fst e) mod buckets =? hash_key (fst entry) mod buckets).
    + by injection Hm as <-.
    + destruct (link_chain buckets entry m) as [l|]; simpl in Hm; [|done].
      injection Hm as <-. rewrite (IH l eq_refl). apply Permutation_swap.
Qed.

Lemma link_bucket_perm buckets entry m :
  link_bucket buckets entry m ≡ₚ entry :: m.
Proof.
  unfold link_bucket.
  destruct (link_chain buckets entry m) as [l|] eqn:Hl; simpl; [|done].
  by apply link_chain_perm with buckets.
Qed.

Global Instance link_hashed_lawful buckets : Lawful (link_hashed buckets).
Proof. intros entry m. apply link_bucket_perm. Qed.

Lemma rehash_perm buckets m : rehash buckets m ≡ₚ m.
Proof.
  unfold rehash.
  assert (∀ linked, fold_left (λ linked e, link_bucket buckets e linked) m linked
                    ≡ₚ m ++ linked) as Hfold.
  { induction m as [|e m IH]; intros linked; simpl; [done|].
    by rewrite IH, link_bucket_perm, <-Permutation_middle. }
  by rewrite Hfold, app_nil_r.
Qed.

Global Instance link_table_lawful sizes : Lawful (link_table sizes).
Proof.
  intros entry m. simpl. unfold link_growing.
  rewrite link_bucket_perm. by destruct (_ =? _); rewrite ?rehash_perm.
Qed.

Lemma occurrences_snoc k v x :
  occurrences k (v ++ [x]) = occurrences k v + (if decide (x = k) then 1 else 0).
Proof.
  unfold occurrences. rewrite filter_app, length_app, filter_cons, filter_nil.
  destruct (decide (x = k)); simpl; lia.
Qed.

Lemma occurrences_app k v w :
  occurrences k (v ++ w) = occurrences k v + occurrences k w.
Proof. unfold occurrences. rewrite filter_app, length_app. lia. Qed.

Lemma occurrences_bounds k v : 0 <= occurrences k v <= Z.of_nat (length v).
Proof.
  unfold occurrences. pose proof (length_filter (λ y, y = k) v). lia.
Qed.

Lemma occurrences_absent k v : k ∉ v → occurrences k v = 0.
Proof.
  intros Hk. unfold occurrences.
  destruct (filter (λ y, y = k) v) as [|y l] eqn:Hf; [done|].
  assert (y ∈ filter (λ y, y = k) v) as Hy by (rewrite Hf; left).
  apply list_elem_of_filter in Hy as [-> Hy]. done.
Qed.

Lemma has_key_spec k m : has_key k m = true ↔ k ∈ m.*1.
Proof.
  unfold has_key. induction m as [|[k' c] m IH]; csimpl.
  - split; [done | by intros ?%elem_of_nil].
  - rewrite orb_true_iff, elem_of_cons, IH, Z.eqb_eq. split; intros [?|?]; auto.
Qed.

Lemma increment_keys k m : (increment k m).*1 = m.*1.
Proof.
  induction m as [|[k' c] m IH]; csimpl; [done|].
  destruct (k' =? k); csimpl; by rewrite ?IH.
Qed.

Lemma increment_split (k : Z) (l1 : list (Z * Z)) (c : Z) (l2 : list (Z * Z)) :
  k ∉ l1.*1 →
  increment k (l1 ++ (k, c) :: l2) = l1 ++ (k, wrap32 (c + 1)) :: l2.
Proof.
  induction l1 as [|[k' c'] l1 IH]; csimpl; intros Hk.
  - by rewrite Z.eqb_refl.
  - apply not_elem_of_cons in Hk as [Hne Hk].
    destruct (Z.eqb_spec k' k) as [->|_]; [done|]. by rewrite IH.
Qed.

Lemma key_split (k : Z) (m : list (Z * Z)) :
  k ∈ m.*1 → ∃ l1 c l2, m = l1 ++ (k, c) :: l2 ∧ k ∉ l1.*1.
Proof.
  induction m as [|[k' c] m IH]; csimpl; intros Hk.
  - by apply elem_of_nil in Hk.
  - destruct (decide (k' = k)) as [->|Hne].
    + exists [], c, m. split; [done | apply not_elem_of_nil].
    + apply elem_of_cons in Hk as [->|Hk]; [done|].
      destruct (IH Hk) as (l1 & c0 & l2 & -> & Hl1).
      exists ((k', c) :: l1), c0, l2. split; [done|].
      csimpl. apply not_elem_of_cons. auto.
Qed.

Section Counting.
Context {O : MapOrder} `{!Lawful O}.

Lemma subscript_keys x m :
  (subscript x m).*1 = m.*1 ∧ x ∈ m.*1
  ∨ (subscript x m).*1 ≡ₚ x :: m.*1 ∧ x ∉ m.*1.
Proof.
  unfold subscript. destruct (has_key x m) eqn:Hx.
  - left. split; [done | by apply has_key_spec].
  - right. split.
    + by rewrite link_perm.
    + rewrite <-has_key_spec, Hx. discriminate.
Qed.

Lemma subscript_NoDup x m : NoDup m.*1 → NoDup (subscript x m).*1.
Proof.
  intros Hm. destruct (subscript_keys x m) as [[-> _]|[-> Hx]]; [done|].
  by apply NoDup_cons.
Qed.

Lemma subscript_has_key x m : x ∈ (subscript x m).*1.
Proof.
  destruct (subscript_keys x m) as [[-> Hx]|[-> _]]; [done | left].
Qed.

Lemma subscript_entry x m k c :
  (k, c) ∈ subscript x m → (k, c) ∈ m ∨ (k = x ∧ c = 0 ∧ x ∉ m.*1).
Proof.
  unfold subscript. destruct (has_key x m) eqn:Hx; [by left|].
  rewrite link_perm. intros [[= -> ->]|Hin]%elem_of_cons; [|by left].
  right. split_and!; [done..|]. rewrite <-has_key_spec, Hx. discriminate.
Qed.

Lemma count_value_keys x m :
  (count_value m x).*1 = m.*1 ∧ x ∈ m.*1
  ∨ (count_value m x).*1 ≡ₚ x :: m.*1 ∧ x ∉ m.*1.
Proof. unfold count_value. rewrite increment_keys. apply subscript_keys. Qed.

Lemma count_values_snoc v x :
  count_values (v ++ [x]) = count_value (count_values v) x.
Proof. unfold count_values. by rewrite fold_left_app. Qed.

Lemma count_values_app v w :
  count_values (v ++ w) = fold_left count_value w (count_values v).
Proof. unfold count_values. by rewrite fold_left_app. Qed.

(** The keys of the map are the values of the vector, each once. *)
Lemma count_values_keys v :
  NoDup (count_values v).*1 ∧ ∀ k, k ∈ (count_values v).*1 ↔ k ∈ v.
Proof.
  induction v as [|x v [IHnd IHk]] using rev_ind.
  - split; [constructor | done].
  - rewrite count_values_snoc.
    destruct (count_value_keys x (count_values v)) as [[-> Hx]|[Hp Hx]].
    + split; [done|]. intros k. rewrite IHk, elem_of_app, list_elem_of_singleton.
      apply IHk in Hx. split; [tauto | by intros [?| ->]].
    + split.
      * rewrite Hp. by apply NoDup_cons.
      * intros k. rewrite Hp, elem_of_cons, IHk, elem_of_app, list_elem_of_singleton.
        tauto.
Qed.

(** Each count is the number of occurrences of its key, as long as the
    counts fit. *)
Lemma count_values_counts v k c :
  counts_fit v → (k, c) ∈ count_values v → c = occurrences k v.
Proof.
  revert k c. induction v as [|x v IH] using rev_ind; intros k c Hfit.
  - by intros ?%elem_of_nil.
  - assert (counts_fit v) as Hfit'.
    { unfold counts_fit in *. rewrite length_app in Hfit. lia. }
    destruct (count_values_keys v) as [Hnd Hkeys].
    rewrite count_values_snoc. unfold count_value.
    pose proof (subscript_NoDup x _ Hnd) as Hnd1.
    destruct (key_split x _ (subscript_has_key x (count_values v)))
      as (l1 & c0 & l2 & Hm1 & Hl1).
    rewrite Hm1, increment_split by done.
    rewrite Hm1, fmap_app, fmap_cons in Hnd1. simpl in Hnd1.
    apply NoDup_app in Hnd1 as (_ & Hdisj & [Hl2 _]%NoDup_cons).
    assert (∀ k' c', (k', c') ∈ l1 ++ (x, c0) :: l2 → c' = occurrences k' v)
      as Hcounts.
    { intros k' c'. rewrite <-Hm1. intros [Hin|(-> & -> & Hx)]%subscript_entry.
      - by apply IH.
      - symmetry. apply occurrences_absent. by rewrite <-Hkeys. }
    rewrite occurrences_snoc.
    intros [Hin|[[= -> ->]|Hin]%elem_of_cons]%elem_of_app.
    + rewrite decide_False.
      * rewrite (Hcounts k c); [lia | apply elem_of_app; by left].
      * intros <-. apply Hl1. by apply (list_elem_of_fmap_2 fst) in Hin.
    + rewrite decide_True by done.
      rewrite (Hcounts x c0) by (apply elem_of_app; right; left).
      apply wrap32_id. pose proof (occurrences_bounds x v).
      unfold counts_fit in Hfit. rewrite length_app in Hfit. simpl in Hfit.
      unfold in_int32, int32_min, int32_max in *. lia.
    + rewrite decide_False.
      * rewrite (Hcounts k c); [lia | apply elem_of_app; right; by right].
      * intros <-. apply Hl2. by apply (list_elem_of_fmap_2 fst) in Hin.
Qed.

End Counting.

(** ** Facts on max_element *)

(** With the comparison [compareCounts], the entry found has a count that
    no entry exceeds, and it is the last such entry of the range. *)
Lemma max_element_from_spec (largest : Z * Z) (l : list (Z * Z)) :
  ∃ l1 l2,
    largest :: l = l1 ++ max_element_from compareCounts largest l :: l2
    ∧ (∀ e, e ∈ l1 → e.2 <= (max_element_from compareCounts largest l).2)
    ∧ (∀ e, e ∈ l2 → e.2 < (max_element_from compareCounts largest l).2)
    ∧ largest.2 <= (max_element_from compareCounts largest l).2.
Proof.
  revert largest. induction l as [|x l IH]; intros largest; simpl.
  - exists [], []. split_and!; [done| |  |lia]; by intros e ?%elem_of_nil.
  - replace (compareCounts largest x) with (largest.2 <=? x.2) by done.
    destruct (Z.leb_spec largest.2 x.2) as [Hle|Hlt].
    + destruct (IH x) as (l1 & l2 & Heq & Hl1 & Hl2 & Hx).
      exists (largest :: l1), l2. rewrite Heq. split_and!; [done| |done|lia].
      intros e [->|He]%elem_of_cons; [lia | by apply Hl1].
    + destruct (IH largest) as (l1 & l2 & Heq & Hl1 & Hl2 & Hx).
      destruct l1 as [|e1 l1]; simpl in Heq.
      * injection Heq as Hr Hl. rewrite <-Hr in Hl2 |- *. subst l2.
        exists [], (x :: l). split_and!; [done| | |lia].
        -- by intros e ?%elem_of_nil.
        -- intros e [->|He]%elem_of_cons; [lia | by apply Hl2].
      * injection Heq as <- Hl. exists (largest :: x :: l1), l2.
        split_and!; [simpl; by rewrite <-Hl| |done|lia].
        intros e [->|[->|He]%elem_of_cons]%elem_of_cons; [lia|lia|].
        apply Hl1. by right.
Qed.

Lemma max_element_from_doubled (f : Z → Z) (a : Z) (l : list Z) :
  (max_element_from compareCounts (a, 2 * f a) ((λ k, (k, 2 * f k)) <$> l)).1
  = (max_element_from compareCounts (a, f a) ((λ k, (k, f k)) <$> l)).1.
Proof.
  revert a. induction l as [|x l IH]; intros a; csimpl; [done|].
  replace (compareCounts (a, 2 * f a) (x, 2 * f x))
    with (2 * f a <=? 2 * f x) by done.
  replace (compareCounts (a, f a) (x, f x)) with (f a <=? f x) by done.
  destruct (Z.leb_spec (f a) (f x)), (Z.leb_spec (2 * f a) (2 * f x));
    try lia; apply IH.
Qed.

Lemma entries_of_keys (f : Z → Z) (m : list (Z * Z)) :
  (∀ k c, (k, c) ∈ m → c = f k) → m = (λ k, (k, f k)) <$> m.*1.
Proof.
  induction m as [|[k c] m IH]; intros Hm; csimpl; [done|].
  rewrite (Hm k c) by left. f_equal. apply IH.
  intros k' c' Hin. apply Hm. by right.
Qed.

(** ** Facts on calculate_mode *)

Section Mode.
Context {O : MapOrder} `{!Lawful O}.

(** On a non-empty vector the map is not empty, so [max_element] finds an
    entry: its key is a value of the vector and the result is that key
    converted to [int]. *)
Lemma calculate_mode_winner v :
  v ≠ [] →
  ∃ k c l1 l2,
    count_values v = l1 ++ (k, c) :: l2
    ∧ calculate_mode v = Value (wrap32 k)
    ∧ k ∈ v
    ∧ (∀ e, e ∈ l1 → e.2 <= c)
    ∧ (∀ e, e ∈ l2 → e.2 < c).
Proof.
  intros Hne. destruct (count_values_keys v) as [_ Hkeys].
  destruct (count_values v) as [|e m] eqn:Hm.
  { destruct v as [|x v]; [done|].
    specialize (Hkeys x). rewrite elem_of_nil in Hkeys.
    exfalso. apply Hkeys. left. }
  destruct (max_element_from_spec e m) as (l1 & l2 & Heq & Hl1 & Hl2 & _).
  destruct (max_element_from compareCounts e m) as [k c] eqn:Hmax.
  exists k, c, l1, l2. split_and!; [done| |  |done|done].
  - destruct v as [|x v]; [done|].
    unfold calculate_mode, mode_of_counts. by rewrite Hm; simpl; rewrite Hmax.
  - apply Hkeys. rewrite Heq, fmap_app, fmap_cons.
    apply elem_of_app. right. left.
Qed.

(** The count of the entry found is the largest number of occurrences. *)
Lemma calculate_mode_winner_counts v :
  v ≠ [] → counts_fit v →
  ∃ k l1 l2,
    count_values v = l1 ++ (k, occurrences k v) :: l2
    ∧ calculate_mode v = Value (wrap32 k)
    ∧ k ∈ v
    ∧ (∀ x, x ∈ v → occurrences x v <= occurrences k v)
    ∧ (∀ x, x ∈ l2.*1 → occurrences x v < occurrences k v).
Proof.
  intros Hne Hfit.
  destruct (calculate_mode_winner v Hne) as (k & c & l1 & l2 & Hm & Hr & Hk & Hl1 & Hl2).
  assert (∀ k' c', (k', c') ∈ l1 ++ (k, c) :: l2 → c' = occurrences k' v)
    as Hcounts.
  { intros k' c'. rewrite <-Hm. by apply count_values_counts. }
  assert (c = occurrences k v) as ->.
  { apply Hcounts, elem_of_app. right. left. }
  exists k, l1, l2. split_and!; [done..| |].
  - intros x Hx. apply (count_values_keys v) in Hx.
    rewrite Hm in Hx. apply list_elem_of_fmap in Hx as ([k' c'] & -> & Hin).
    simpl. rewrite <-(Hcounts k' c' Hin).
    apply elem_of_app in Hin as [Hin|[[= -> ->]|Hin]%elem_of_cons].
    + by apply (Hl1 (k', c')).
    + lia.
    + apply Z.lt_le_incl. by apply (Hl2 (k', c')).
  - intros x ([k' c'] & -> & Hin)%list_elem_of_fmap. simpl.
    rewrite <-(Hcounts k' c'); [by apply (Hl2 (k', c'))|].
    apply elem_of_app. right. by right.
Qed.

Lemma fold_count_value_keys w m :
  (∀ x, x ∈ w → x ∈ m.*1) → (fold_left count_value w m).*1 = m.*1.
Proof.
  revert m. induction w as [|x w IH]; intros m Hw; simpl; [done|].
  destruct (count_value_keys x m) as [[Hk _]|[_ Hx]].
  - rewrite IH; [done|]. intros y Hy. rewrite Hk. apply Hw. by right.
  - exfalso. apply Hx, Hw. left.
Qed.

End Mode.

Lemma wrap32_add_l a b : wrap32 (wrap32 a + b) = wrap32 (a + b).
Proof.
  unfold wrap32. f_equal.
  replace ((a + 2 ^ 31) mod 2 ^ 32 - 2 ^ 31 + b + 2 ^ 31)
    with ((a + 2 ^ 31) mod 2 ^ 32 + b) by lia.
  rewrite Zplus_mod_idemp_l. f_equal. lia.
Qed.

(** Counting [n] further occurrences of a key that is present. *)
Lemma fold_count_replicate {O : MapOrder} (n : nat) (k : Z)
    (l1 : list (Z * Z)) (c : Z) (l2 : list (Z * Z)) :
  k ∉ l1.*1 →
  fold_left count_value (replicate n k) (l1 ++ (k, wrap32 c) :: l2)
  = l1 ++ (k, wrap32 (c + Z.of_nat n)) :: l2.
Proof.
  intros Hk. revert c. induction n as [|n IH]; intros c.
  - simpl. by rewrite Z.add_0_r.
  - simpl replicate. simpl fold_left.
    replace (count_value (l1 ++ (k, wrap32 c) :: l2) k)
      with (l1 ++ (k, wrap32 (c + 1)) :: l2).
    + rewrite IH. do 4 f_equal. lia.
    + unfold count_value, subscript.
      assert (has_key k (l1 ++ (k, wrap32 c) :: l2) = true) as ->.
      { apply has_key_spec. rewrite fmap_app, fmap_cons.
        apply elem_of_app. right. left. }
      by rewrite increment_split, wrap32_add_l.
Qed.

(** ** Claims on calculate_mode *)

(** C1. The comment of [calculate_mode] promises that of two values with
    the same count the first one is returned, and the comparison [<=] is
    there for it: [max_element] then keeps the last of the tied entries,
    which is the first value met as long as the map iterates from the
    newest key to the oldest. The table does not always do so. In
    [0; 1; 13; 1; 13] the values [1] and [13] both occur twice, no value
    occurs more often, and [1] is met first; but [13] falls into the
    bucket of [0] and is linked behind [1], and the mode returned is [13].
    With the fourteen values [0, 1, ..., 13], each occurring once, the
    fourteenth insertion makes the table grow, which turns the order of
    the nodes over, and the mode returned is [12], not [0]. *)
Theorem calculate_mode_tie_break_missed :
  count_values (O := link_gnu) [0; 1; 13; 1; 13] = [(1, 2); (13, 2); (0, 1)]
  ∧ calculate_mode (O := link_gnu) [0; 1; 13; 1; 13] = Value 13
  ∧ occurrences 1 [0; 1; 13; 1; 13] = 2
  ∧ occurrences 13 [0; 1; 13; 1; 13] = 2
  ∧ Forall (λ x, occurrences x [0; 1; 13; 1; 13] <= 2) [0; 1; 13; 1; 13]
  ∧ (count_values (O := link_gnu) (Z.of_nat <$> seq 0 14)).*1
    = 13 :: (Z.of_nat <$> seq 0 13)
  ∧ calculate_mode (O := link_gnu) (Z.of_nat <$> seq 0 14) = Value 12
  ∧ Forall (λ x, occurrences x (Z.of_nat <$> seq 0 14) = 1)
      (Z.of_nat <$> seq 0 14).
Proof.
  split_and!; try (vm_compute; reflexivity).
  - repeat constructor; vm_compute; discriminate.
  - repeat constructor.
Qed.

(** C2 at a sample that does not fit in an [int]: the only value of the
    vector is [2 ^ 32] and the result is [0], whatever the order of the
    map. *)
Theorem calculate_mode_wide_sample (O : MapOrder) `{!Lawful O} :
  int64_vector [2 ^ 32]
  ∧ calculate_mode [2 ^ 32] = Value 0
  ∧ 0 ∉ [2 ^ 32].
Proof.
  split_and!.
  - split; [repeat constructor; vm_compute; discriminate | vm_compute; discriminate].
  - destruct (calculate_mode_winner [2 ^ 32]) as (k & _ & _ & _ & _ & -> & Hk & _);
      [done|].
    by apply list_elem_of_singleton in Hk as ->.
  - by intros ?%list_elem_of_singleton.
Qed.

Lemma calculate_mode_wide_sample_witness :
  calculate_mode (O := link_back) [2 ^ 32] = Value 0.
Proof. apply (calculate_mode_wide_sample link_back). Defined.

(** C9. The result of [calculate_mode] is an [int]: for every vector it is
    [0] or a value of the vector, converted to [int]; and there is a
    non-empty vector whose most frequent value does not fit in an [int], for
    which the result is that value reduced modulo [2 ^ 32] into the range of
    [int] and is not an element of the vector. *)
Theorem calculate_mode_narrowed (O : MapOrder) `{!Lawful O} :
  (∀ v, ∃ k, (v = [] ∧ k = 0 ∨ k ∈ v)
             ∧ calculate_mode v = Value (wrap32 k)
             ∧ in_int32 (wrap32 k))
  ∧ (∃ v k, v ≠ [] ∧ int64_vector v ∧ k ∈ v
            ∧ (∀ x, x ∈ v → occurrences x v <= occurrences k v)
            ∧ ¬ in_int32 k
            ∧ calculate_mode v = Value (wrap32 k)
            ∧ wrap32 k = (k + 2 ^ 31) mod 2 ^ 32 - 2 ^ 31
            ∧ wrap32 k ∉ v).
Proof.
  split.
  - intros [|x v].
    + exists 0. split_and!; [by left | done | apply wrap32_range].
    + destruct (calculate_mode_winner (x :: v)) as (k & _ & _ & _ & _ & Hr & Hk & _);
        [done|].
      exists k. split_and!; [by right | done | apply wrap32_range].
  - exists [2 ^ 32 + 5], (2 ^ 32 + 5). split_and!.
    + done.
    + split; [repeat constructor; vm_compute; discriminate | vm_compute; discriminate].
    + left.
    + intros x ->%list_elem_of_singleton. lia.
    + unfold in_int32, int32_min, int32_max. lia.
    + destruct (calculate_mode_winner [2 ^ 32 + 5])
        as (k & _ & _ & _ & _ & -> & Hk & _); [done|].
      by apply list_elem_of_singleton in Hk as ->.
    + done.
    + intros Hin%list_elem_of_singleton. vm_compute in Hin. discriminate.
Qed.

Lemma calculate_mode_narrowed_witness :
  ∃ k, calculate_mode (O := link_front) [2 ^ 32 + 5] = Value (wrap32 k).
Proof.
  destruct (calculate_mode_narrowed link_front) as [H _].
  destruct (H [2 ^ 32 + 5]) as (k & _ & Hr & _). by exists k.
Defined.

(** C8, as the spec states it, fails once a count leaves the range of
    [int]: with [2 ^ 30] samples [5] followed by one sample [7], the mode is
    [5]; in the vector repeated twice the count of [5] reaches [2 ^ 31],
    which as an [int] is [- 2 ^ 31], and the mode is [7]. *)
Lemma calculate_mode_repeated_counterexample :
  int64_vector (replicate (Z.to_nat (2 ^ 30)) 5 ++ [7])
  ∧ calculate_mode (O := link_front) (replicate (Z.to_nat (2 ^ 30)) 5 ++ [7])
    = Value 5
  ∧ calculate_mode (O := link_front)
      ((replicate (Z.to_nat (2 ^ 30)) 5 ++ [7])
       ++ (replicate (Z.to_nat (2 ^ 30)) 5 ++ [7]))
    = Value 7.
Proof.
  assert (∃ n, Z.to_nat (2 ^ 30) = S n ∧ Z.of_nat n = 2 ^ 30 - 1)
    as (n & -> & Hn).
  { exists (Z.to_nat (2 ^ 30 - 1)). split; [|apply Z2Nat.id; lia].
    rewrite <-Z2Nat.inj_succ by lia. f_equal. }
  assert (count_values (O := link_front) (replicate (S n) 5)
          = [(5, 2 ^ 30)]) as Hfives.
  { unfold count_values. simpl replicate. simpl fold_left.
    change (count_value (O := link_front) [] 5) with ([] ++ (5, wrap32 1) :: []).
    rewrite fold_count_replicate by apply not_elem_of_nil.
    replace (1 + Z.of_nat n) with (2 ^ 30) by lia. reflexivity. }
  assert (count_values (O := link_front) (replicate (S n) 5 ++ [7])
          = [(7, 1); (5, 2 ^ 30)]) as Hv.
  { rewrite count_values_snoc, Hfives. reflexivity. }
  split_and!.
  - split.
    + apply Forall_app. split; [apply Forall_replicate | apply Forall_singleton];
        vm_compute; split; discriminate.
    + rewrite length_app, length_replicate. simpl length.
      unfold vector_max_size. lia.
  - change (mode_of_counts (count_values (O := link_front) (replicate (S n) 5 ++ [7]))
            = Value 5).
    rewrite Hv. reflexivity.
  - change (mode_of_counts
              (count_values (O := link_front)
                 ((replicate (S n) 5 ++ [7]) ++ (replicate (S n) 5 ++ [7])))
            = Value 7).
    rewrite count_values_app, Hv, fold_left_app.
    change [(7, 1); (5, 2 ^ 30)] with ([(7, 1)] ++ (5, wrap32 (2 ^ 30)) :: []).
    rewrite fold_count_replicate.
    + replace (2 ^ 30 + Z.of_nat (S n)) with (2 ^ 31) by lia. reflexivity.
    + by intros ?%list_elem_of_singleton.
Qed.

(** C8, amended. When the counts of the repeated vector fit in an [int],
    that is when [v ++ v] has at most [2 ^ 31 - 1] elements, the mode of
    [v ++ v] is the mode of [v], whatever the order of the map. *)
Theorem calculate_mode_repetition (O : MapOrder) `{!Lawful O} (v : list Z) :
  counts_fit (v ++ v) → calculate_mode (v ++ v) = calculate_mode v.
Proof.
  intros Hfit2.
  assert (counts_fit v) as Hfit.
  { unfold counts_fit in *. rewrite length_app in Hfit2. lia. }
  destruct v as [|x v]; [done|].
  set (w := x :: v) in *.
  change (mode_of_counts (count_values (w ++ w)) = mode_of_counts (count_values w)).
  destruct (count_values_keys w) as [_ Hkeys].
  assert ((count_values (w ++ w)).*1 = (count_values w).*1) as Hsame.
  { rewrite count_values_app. apply fold_count_value_keys.
    intros y Hy. by apply Hkeys. }
  rewrite (entries_of_keys (λ k, 2 * occurrences k w) (count_values (w ++ w))).
  2:{ intros k c Hin. rewrite (count_values_counts _ k c Hfit2 Hin).
      rewrite occurrences_app. lia. }
  rewrite (entries_of_keys (λ k, occurrences k w) (count_values w)).
  2:{ intros k c Hin. by apply count_values_counts. }
  rewrite Hsame. unfold mode_of_counts.
  destruct ((count_values w).*1) as [|a l]; csimpl; [done|].
  do 2 f_equal. apply (max_element_from_doubled (λ k, occurrences k w)).
Qed.

Lemma calculate_mode_repetition_witness :
  calculate_mode (O := link_hashed 5) ([0; 1; 5; 1; 5] ++ [0; 1; 5; 1; 5])
  = calculate_mode (O := link_hashed 5) [0; 1; 5; 1; 5].
Proof.
  apply (calculate_mode_repetition (link_hashed 5) [0; 1; 5; 1; 5]).
  vm_compute. discriminate.
Defined.

(** ** Facts on nth_element *)

Lemma select_spec (fuel n : nat) (v : list Z) :
  (length v ≤ fuel)%nat →
  select fuel n v ≡ₚ v
  ∧ ((n < length v)%nat → ∃ x, split_at n x (select fuel n v)).
Proof.
  revert n v. induction fuel as [|fuel IH]; intros n v Hfuel.
  { destruct v; simpl in *; [|lia]. split; [done | lia]. }
  destruct v as [|pivot rest]; simpl in Hfuel |- *.
  { split; [done | lia]. }
  set (lower := filter (λ x, x < pivot) rest).
  set (upper := filter (λ x, ¬ x < pivot) rest).
  assert (lower ++ upper ≡ₚ rest) as Hparts by apply filter_app_complement.
  assert (length lower + length upper = length rest)%nat as Hlen.
  { by rewrite <-length_app, Hparts. }
  assert (∀ y, y ∈ lower → y < pivot) as Hlower.
  { intros y Hy. by apply list_elem_of_filter in Hy as [? _]. }
  assert (∀ y, y ∈ upper → pivot <= y) as Hupper.
  { intros y Hy. apply list_elem_of_filter in Hy as [? _]. lia. }
  destruct (Nat.compare_spec n (length lower)) as [Heq|Hlt|Hgt].
  - split.
    + by rewrite <-Permutation_middle, Hparts.
    + intros _. exists pivot, lower, upper. split_and!; [done..| |done].
      intros y Hy. apply Z.lt_le_incl. by apply Hlower.
  - destruct (IH n lower) as [Hperm Hsplit]; [lia|].
    split.
    + by rewrite Hperm, <-Permutation_middle, Hparts.
    + intros _. destruct (Hsplit Hlt) as (x & a & b & Hsel & Ha & Hax & Hxb).
      assert (x < pivot) as Hx.
      { apply Hlower. rewrite <-Hperm, Hsel. apply elem_of_app. right. left. }
      exists x, a, (b ++ pivot :: upper). split_and!; [|done..|].
      * by rewrite Hsel, <-app_assoc.
      * intros y [Hy|[->|Hy]%elem_of_cons]%elem_of_app; [by apply Hxb|lia|].
        specialize (Hupper y Hy). lia.
  - destruct (IH (n - S (length lower))%nat upper) as [Hperm Hsplit]; [lia|].
    split.
    + by rewrite Hperm, <-Permutation_middle, Hparts.
    + intros Hn. destruct Hsplit as (x & a & b & Hsel & Ha & Hax & Hxb); [lia|].
      assert (pivot <= x) as Hx.
      { apply Hupper. rewrite <-Hperm, Hsel. apply elem_of_app. right. left. }
      exists x, (lower ++ pivot :: a), b. split_and!; [| |  |done].
      * by rewrite Hsel, <-app_assoc.
      * rewrite length_app. simpl. lia.
      * intros y [Hy|[->|Hy]%elem_of_cons]%elem_of_app; [|lia|by apply Hax].
        specialize (Hlower y Hy). lia.
Qed.

Lemma nth_element_spec (n : nat) (v : list Z) :
  nth_element n v ≡ₚ v
  ∧ ((n < length v)%nat → ∃ x, split_at n x (nth_element n v)).
Proof. apply select_spec. lia. Qed.

(** The element around which a sequence is split is the one a sorted
    arrangement has at that index. *)
Lemma split_at_sorted (n : nat) (x : Z) (r s : list Z) :
  split_at n x r → s ≡ₚ r → Sorted Z.le s → s !! n = Some x.
Proof.
  intros (a & b & -> & <- & Ha & Hb) Hperm Hsorted.
  assert (s = merge_sort Z.le a ++ x :: merge_sort Z.le b) as ->.
  { apply (StronglySorted_unique Z.le).
    - by apply Sorted_StronglySorted; [apply _|].
    - apply StronglySorted_app_2.
      + intros x1 x2. rewrite merge_sort_Permutation, elem_of_cons,
          merge_sort_Permutation.
        intros H1 [->|H2]; [by apply Ha|].
        specialize (Ha x1 H1). specialize (Hb x2 H2). lia.
      + apply StronglySorted_merge_sort; apply _.
      + apply SSorted_cons; [apply StronglySorted_merge_sort; apply _|].
        apply Forall_forall. intros y. rewrite merge_sort_Permutation. apply Hb.
    - by rewrite Hperm, !merge_sort_Permutation. }
  apply list_lookup_middle.
  by rewrite (Permutation_length (merge_sort_Permutation Z.le a)).
Qed.

Lemma sorted_adjacent (s : list Z) (i : nat) (lo hi : Z) :
  Sorted Z.le s → s !! i = Some lo → s !! S i = Some hi → lo <= hi.
Proof.
  intros Hsorted Hlo Hhi.
  apply list_elem_of_split_length in Hlo as (l1 & l2 & -> & ->).
  rewrite lookup_app_r in Hhi by lia.
  replace (S (length l1) - length l1)%nat with 1%nat in Hhi by lia.
  destruct l2 as [|h l2]; simpl in Hhi; [done|]. injection Hhi as ->.
  apply Sorted_StronglySorted in Hsorted; [|apply _].
  apply StronglySorted_app_1_r, StronglySorted_cons in Hsorted as [Hall _].
  by apply Forall_cons in Hall as [? _].
Qed.

(** ** Claim on calculate_median *)

(** C3. The median of the empty vector is [0]. On a non-empty vector of
    length [n], [calculate_median] returns the element that every sorted
    arrangement of the vector has at index [n / 2]; the vector it leaves is
    a permutation of the original with that element at index [n / 2]; and
    for even [n = 2 * m] the result is the upper of the two middle values of
    the sorted arrangement, the one at index [m], not below the one at
    index [m - 1]. *)
Theorem calculate_median_spec (v : list Z) :
  (v = [] → calculate_median v = (0, []))
  ∧ (v ≠ [] →
     ∃ r v',
       calculate_median v = (r, v')
       ∧ v' ≡ₚ v
       ∧ v' !! (length v / 2)%nat = Some r
       ∧ (∀ s, s ≡ₚ v → Sorted Z.le s → s !! (length v / 2)%nat = Some r)
       ∧ (∀ s m lo, s ≡ₚ v → Sorted Z.le s → length v = (2 * S m)%nat →
            s !! m = Some lo → s !! S m = Some r ∧ lo <= r)).
Proof.
  split; [by intros ->|]. intros Hne.
  set (n := (length v / 2)%nat).
  assert (n < length v)%nat as Hn.
  { destruct v; [done|]. apply Nat.div_lt; simpl; lia. }
  destruct (nth_element_spec n v) as [Hperm Hsplit].
  destruct (Hsplit Hn) as (x & Hx).
  assert (nth_element n v !! n = Some x) as Hat.
  { destruct Hx as (a & b & -> & <- & _). by apply list_lookup_middle. }
  assert (∀ s, s ≡ₚ v → Sorted Z.le s → s !! n = Some x) as Hsorted.
  { intros s Hs Hsort. apply (split_at_sorted n x (nth_element n v)); [done| |done].
    by rewrite Hs, Hperm. }
  exists x, (nth_element n v). split_and!; [|done..|].
  - destruct v as [|y v]; [done|]. unfold calculate_median. fold n. by rewrite Hat.
  - intros s m lo Hs Hsort Hlen Hlo.
    assert (n = S m) as Hm.
    { unfold n. rewrite Hlen, Nat.mul_comm. by apply Nat.div_mul. }
    pose proof (Hsorted s Hs Hsort) as Hr. rewrite Hm in Hr.
    split; [done|]. by apply (sorted_adjacent s m).
Qed.

Lemma calculate_median_spec_witness :
  calculate_median [] = (0, [])
  ∧ ∃ r v', calculate_median [1; 4; 3; 2] = (r, v')
            ∧ [1; 2; 3; 4] !! 2%nat = Some r ∧ 2 <= r.
Proof.
  split.
  - by apply (calculate_median_spec []).
  - destruct (calculate_median_spec [1; 4; 3; 2]) as [_ H].
    destruct H as (r & v' & Hr & _ & _ & _ & Heven); [discriminate|].
    exists r, v'. split; [done|].
    apply (Heven [1; 2; 3; 4] 1%nat 2).
    + apply Permutation_skip. etransitivity; [apply perm_swap|].
      change [3; 2; 4] with ([3; 2] ++ [4]). symmetry.
      apply Permutation_cons_append.
    + repeat constructor; by vm_compute.
    + reflexivity.
    + reflexivity.
Defined.

(** ** Facts on the reducers on the caller's vector *)

Lemma traverse_run {A : Type} (step : A → Z → A) (i n : nat) (acc : A) (s : list Z) :
  (i + n = length s)%nat →
  ByRef.traverse step i n acc s = (fold_left step (drop i s) acc, s).
Proof.
  revert i acc. induction n as [|n IH]; intros i acc Hlen; simpl.
  - rewrite drop_ge by lia. done.
  - unfold ByRef.bind, ByRef.get.
    destruct (lookup_lt_is_Some_2 s i) as [x Hx]; [lia|].
    rewrite Hx, (drop_S s x i Hx). simpl. apply IH. lia.
Qed.

Lemma for_each_run {A : Type} (step : A → Z → A) (init : A) (s : list Z) :
  ByRef.for_each step init s = (fold_left step s init, s).
Proof.
  unfold ByRef.for_each, ByRef.bind, ByRef.size.
  by rewrite traverse_run.
Qed.

Lemma byref_calculate_mean_run (s : list Z) :
  ByRef.calculate_mean s = (calculate_mean s, s).
Proof.
  unfold ByRef.calculate_mean, ByRef.bind. by rewrite for_each_run.
Qed.

Lemma byref_calculate_mode_run {O : MapOrder} (s : list Z) :
  ByRef.calculate_mode s = (calculate_mode s, s).
Proof.
  unfold ByRef.calculate_mode, ByRef.bind, ByRef.empty.
  destruct s as [|x s]; [done|].
  rewrite bool_decide_false by done. by rewrite for_each_run.
Qed.

(** ** Claim on the effect of the reducers *)

(** C6. Run on the caller's vector, [calculate_mean] and [calculate_mode]
    return their result and leave the vector as it was; [calculate_median]
    is the one reducer that reorders it, as on [3; 1; 2]. *)
Theorem mean_mode_leave_input (O : MapOrder) (v : list Z) :
  ByRef.calculate_mean v = (calculate_mean v, v)
  ∧ ByRef.calculate_mode v = (calculate_mode v, v)
  ∧ (calculate_median [3; 1; 2]).2 = [1; 2; 3]
  ∧ (calculate_median [3; 1; 2]).2 ≠ [3; 1; 2].
Proof.
  split_and!.
  - apply byref_calculate_mean_run.
  - apply byref_calculate_mode_run.
  - reflexivity.
  - discriminate.
Qed.

(** * Further properties *)

(** ** ConnectionHandle as a key *)

(** X1. [operator==] on handles is an equivalence relation: it is
    reflexive, symmetric and transitive, as a key of an associative
    container needs. *)
Theorem connection_handle_eqb_equivalence (a b c : ConnectionHandle.t) :
  ConnectionHandle.eqb a a = true
  ∧ ConnectionHandle.eqb a b = ConnectionHandle.eqb b a
  ∧ (ConnectionHandle.eqb a b = true → ConnectionHandle.eqb b c = true →
     ConnectionHandle.eqb a c = true).
Proof.
  unfold ConnectionHandle.eqb. split_and!.
  - apply Z.eqb_refl.
  - apply Z.eqb_sym.
  - intros Hab%Z.eqb_eq Hbc%Z.eqb_eq. apply Z.eqb_eq. congruence.
Qed.

Lemma connection_handle_eqb_equivalence_witness :
  ConnectionHandle.eqb (ConnectionHandle.Build 7) (ConnectionHandle.Build 7) = true.
Proof.
  apply (connection_handle_eqb_equivalence
           (ConnectionHandle.Build 7) (ConnectionHandle.Build 7)
           (ConnectionHandle.Build 7)); reflexivity.
Defined.

(** X2. The default-constructed handle is invalid; a handle is invalid
    exactly when it equals the default-constructed one, so any two invalid
    handles are equal; and equal handles are both valid or both invalid. *)
Theorem connection_handle_validity (a b : ConnectionHandle.t) :
  ConnectionHandle.to_bool ConnectionHandle.default = false
  ∧ (ConnectionHandle.to_bool a = false
     ↔ ConnectionHandle.eqb a ConnectionHandle.default = true)
  ∧ (ConnectionHandle.to_bool a = false → ConnectionHandle.to_bool b = false →
     ConnectionHandle.eqb a b = true)
  ∧ (ConnectionHandle.eqb a b = true →
     ConnectionHandle.to_bool a = ConnectionHandle.to_bool b).
Proof.
  unfold ConnectionHandle.to_bool, ConnectionHandle.eqb. simpl.
  split_and!.
  - done.
  - by rewrite negb_false_iff.
  - rewrite !negb_false_iff, !Z.eqb_eq. congruence.
  - intros Hab%Z.eqb_eq. by rewrite Hab.
Qed.

Lemma connection_handle_validity_witness :
  ConnectionHandle.eqb ConnectionHandle.default
    (ConnectionHandle.Build (2 ^ 64 - 1)) = true.
Proof.
  apply (connection_handle_validity ConnectionHandle.default
           (ConnectionHandle.Build (2 ^ 64 - 1))); reflexivity.
Defined.

(** ** calculate_mean *)

Lemma sum_list_perm v w : v ≡ₚ w → sum_list v = sum_list w.
Proof.
  unfold sum_list. induction 1; simpl; lia.
Qed.

Lemma sum_list_app v w : sum_list (v ++ w) = sum_list v + sum_list w.
Proof.
  unfold sum_list. induction v as [|x v IH]; simpl; lia.
Qed.

Lemma sum_list_opp v : sum_list (Z.opp <$> v) = - sum_list v.
Proof.
  unfold sum_list. induction v as [|x v IH]; csimpl; lia.
Qed.

Lemma sum_list_between lo hi v :
  Forall (λ x, lo <= x <= hi) v →
  Z.of_nat (length v) * lo <= sum_list v <= Z.of_nat (length v) * hi.
Proof.
  unfold sum_list. induction 1 as [|x v Hx _ IH]; simpl length; simpl foldr; lia.
Qed.

Lemma quot_between s n lo hi :
  0 < n → n * lo <= s <= n * hi → lo <= s ÷ n <= hi.
Proof.
  intros Hn Hs. pose proof (Z.quot_rem' s n) as Hdiv.
  destruct (Z.le_gt_cases 0 s) as [Hpos|Hneg].
  - pose proof (Z.rem_bound_pos s n Hpos Hn). nia.
  - pose proof (Z.rem_nonpos s n ltac:(lia) ltac:(lia)).
    pose proof (Z.rem_bound_abs s n ltac:(lia)). nia.
Qed.

(** X3. The mean does not depend on the order of the samples: two vectors
    that are permutations of each other have the same mean, also when the
    sum leaves the 64-bit range, and both divide by zero when empty. *)
Theorem calculate_mean_permutation (v w : list Z) :
  v ≡ₚ w → calculate_mean v = calculate_mean w.
Proof.
  intros Hperm. unfold calculate_mean, size_as_V.
  rewrite !accumulate_wrap, (sum_list_perm v w Hperm).
  by rewrite (Permutation_length Hperm).
Qed.

Lemma calculate_mean_permutation_witness :
  calculate_mean [30; 10; 20] = calculate_mean [10; 20; 30].
Proof.
  apply calculate_mean_permutation.
  change [30; 10; 20] with (30 :: [10; 20]).
  change [10; 20; 30] with ([10; 20] ++ [30]).
  apply Permutation_cons_append.
Defined.

(** X4. When the sum of the samples is a 64-bit value, the mean of a
    non-empty vector lies between any lower and upper bound of its
    samples, so between the smallest and the largest sample. *)
Theorem calculate_mean_between (v : list Z) (lo hi : Z) :
  int64_vector v → v ≠ [] → in_int64 (sum_list v) →
  Forall (λ x, lo <= x <= hi) v →
  ∃ q, calculate_mean v = Value q ∧ lo <= q <= hi.
Proof.
  intros Hv Hne Hsum Hbounds.
  exists (sum_list v ÷ Z.of_nat (length v)). split.
  - rewrite (calculate_mean_value v Hv Hne). by rewrite (wrap64_id _ Hsum).
  - apply quot_between.
    + destruct v; [done | simpl; lia].
    + by apply sum_list_between.
Qed.

Lemma calculate_mean_between_witness :
  ∃ q, calculate_mean [16; 17; 33] = Value q ∧ 16 <= q <= 33.
Proof.
  apply calculate_mean_between.
  - split; [repeat constructor; vm_compute; discriminate | vm_compute; discriminate].
  - discriminate.
  - vm_compute. split; discriminate.
  - repeat constructor; vm_compute; discriminate.
Defined.

(** X5. The division truncates toward zero, so negating every sample
    negates the mean, as long as both sums are 64-bit values. *)
Theorem calculate_mean_opposite (v : list Z) :
  int64_vector v → int64_vector (Z.opp <$> v) → v ≠ [] →
  in_int64 (sum_list v) → in_int64 (- sum_list v) →
  ∃ q, calculate_mean v = Value q ∧ calculate_mean (Z.opp <$> v) = Value (- q).
Proof.
  intros Hv Hv' Hne Hsum Hsum'.
  exists (sum_list v ÷ Z.of_nat (length v)). split.
  - rewrite (calculate_mean_value v Hv Hne). by rewrite (wrap64_id _ Hsum).
  - rewrite (calculate_mean_value _ Hv') by (by destruct v).
    rewrite sum_list_opp, (wrap64_id _ Hsum'), length_fmap.
    f_equal. apply Z.quot_opp_l. destruct v; [done | simpl; lia].
Qed.

Lemma calculate_mean_opposite_witness :
  ∃ q, calculate_mean [7; -2] = Value q
       ∧ calculate_mean (Z.opp <$> [7; -2]) = Value (- q).
Proof.
  apply calculate_mean_opposite.
  - split; [repeat constructor; vm_compute; discriminate | vm_compute; discriminate].
  - split; [repeat constructor; vm_compute; discriminate | vm_compute; discriminate].
  - discriminate.
  - vm_compute. split; discriminate.
  - vm_compute. split; discriminate.
Defined.

(** X6. Repeating the whole vector does not change the mean, as long as
    the sum of the repeated vector is a 64-bit value. *)
Theorem calculate_mean_repetition (v : list Z) :
  int64_vector (v ++ v) → v ≠ [] → in_int64 (sum_list (v ++ v)) →
  calculate_mean (v ++ v) = calculate_mean v
  ∧ calculate_mean v = Value (sum_list v ÷ Z.of_nat (length v)).
Proof.
  intros [Hall Hsize] Hne Hsum.
  assert (int64_vector v) as Hv.
  { split; [by apply Forall_app in Hall as [? _]|].
    rewrite length_app in Hsize. lia. }
  assert (0 < Z.of_nat (length v)) as Hlen.
  { destruct v; [done | simpl; lia]. }
  assert (in_int64 (sum_list v)) as Hsum1.
  { rewrite sum_list_app in Hsum.
    unfold in_int64, int64_min, int64_max in *. lia. }
  rewrite (calculate_mean_value (v ++ v)); [|done|by destruct v].
  rewrite (calculate_mean_value v Hv Hne).
  rewrite (wrap64_id _ Hsum), (wrap64_id _ Hsum1). split; [|done].
  f_equal. rewrite sum_list_app, length_app, Nat2Z.inj_add.
  replace (sum_list v + sum_list v) with (2 * sum_list v) by lia.
  replace (Z.of_nat (length v) + Z.of_nat (length v))
    with (2 * Z.of_nat (length v)) by lia.
  apply Z.quot_mul_cancel_l; lia.
Qed.

Lemma calculate_mean_repetition_witness :
  calculate_mean ([1; 2] ++ [1; 2]) = calculate_mean [1; 2].
Proof.
  apply calculate_mean_repetition.
  - split; [repeat constructor; vm_compute; discriminate | vm_compute; discriminate].
  - discriminate.
  - vm_compute. split; discriminate.
Defined.

Lemma sum_list_le v w : Forall2 Z.le v w → sum_list v <= sum_list w.
Proof.
  unfold sum_list. induction 1; simpl; lia.
Qed.

(** X12. The mean is monotone: when each sample of one vector is at most
    the sample at the same position of another and both sums are 64-bit
    values, the mean of the first is at most the mean of the second. *)
Theorem calculate_mean_monotone (v w : list Z) :
  int64_vector v → int64_vector w → v ≠ [] →
  in_int64 (sum_list v) → in_int64 (sum_list w) →
  Forall2 Z.le v w →
  ∃ p q, calculate_mean v = Value p ∧ calculate_mean w = Value q ∧ p <= q.
Proof.
  intros Hv Hw Hne Hsv Hsw Hle.
  pose proof (Forall2_length _ _ _ Hle) as Hlen.
  exists (sum_list v ÷ Z.of_nat (length v)), (sum_list w ÷ Z.of_nat (length v)).
  split_and!.
  - rewrite (calculate_mean_value v Hv Hne). by rewrite (wrap64_id _ Hsv).
  - rewrite (calculate_mean_value w Hw).
    + by rewrite (wrap64_id _ Hsw), Hlen.
    + intros ->. by destruct v.
  - apply Z.quot_le_mono; [|by apply sum_list_le].
    destruct v; [done | simpl; lia].
Qed.

Lemma calculate_mean_monotone_witness :
  ∃ p q, calculate_mean [1; 5] = Value p ∧ calculate_mean [2; 5] = Value q ∧ p <= q.
Proof.
  apply calculate_mean_monotone.
  - split; [repeat constructor; vm_compute; discriminate | vm_compute; discriminate].
  - split; [repeat constructor; vm_compute; discriminate | vm_compute; discriminate].
  - discriminate.
  - vm_compute. split; discriminate.
  - vm_compute. split; discriminate.
  - repeat constructor; vm_compute; discriminate.
Defined.

(** ** The frequency map and calculate_mode *)

Lemma occurrences_present k v : k ∈ v → 1 <= occurrences k v.
Proof.
  intros Hk. unfold occurrences.
  assert (k ∈ filter (λ y, y = k) v) as Hf by (by apply list_elem_of_filter).
  destruct (filter (λ y, y = k) v); [by apply elem_of_nil in Hf | simpl; lia].
Qed.

Lemma length_filter_elem_of_cons (k : Z) (K v : list Z) :
  k ∉ K →
  Z.of_nat (length (filter (λ y, y ∈ k :: K) v))
  = occurrences k v + Z.of_nat (length (filter (λ y, y ∈ K) v)).
Proof.
  intros Hk. unfold occurrences.
  induction v as [|y v IH]; [done|].
  rewrite !filter_cons.
  destruct (decide (y = k)) as [->|Hne].
  - rewrite decide_True by left. rewrite decide_False by done.
    simpl length. lia.
  - destruct (decide (y ∈ K)) as [Hy|Hy].
    + rewrite decide_True by (by right). simpl length. lia.
    + rewrite decide_False; [done|]. by intros [?|?]%elem_of_cons.
Qed.

Lemma sum_occurrences (K v : list Z) :
  NoDup K →
  sum_list ((λ k, occurrences k v) <$> K)
  = Z.of_nat (length (filter (λ y, y ∈ K) v)).
Proof.
  induction 1 as [|k K Hk _ IH].
  - simpl. induction v as [|y v IHv]; [done|].
    rewrite filter_cons, decide_False; [done | apply not_elem_of_nil].
  - rewrite length_filter_elem_of_cons by done. rewrite <-IH. done.
Qed.

Lemma filter_all (K v : list Z) :
  (∀ y, y ∈ v → y ∈ K) → filter (λ y, y ∈ K) v = v.
Proof.
  induction v as [|y v IH]; intros Hall; [done|].
  rewrite filter_cons, decide_True by (apply Hall; left).
  f_equal. apply IH. intros z Hz. apply Hall. by right.
Qed.

(** X7. The map built by the counting loop has one entry for each distinct
    value of the vector and none else; while the counts fit in an [int],
    each entry holds the number of occurrences of its key, which is at
    least one, and the counts add up to the number of samples. *)
Theorem count_values_invariant (O : MapOrder) `{!Lawful O} (v : list Z) :
  counts_fit v →
  NoDup (count_values v).*1
  ∧ (∀ k, k ∈ (count_values v).*1 ↔ k ∈ v)
  ∧ (∀ k c, (k, c) ∈ count_values v → c = occurrences k v ∧ 1 <= c)
  ∧ sum_list (count_values v).*2 = Z.of_nat (length v).
Proof.
  intros Hfit. destruct (count_values_keys v) as [Hnd Hkeys].
  assert (∀ k c, (k, c) ∈ count_values v → c = occurrences k v) as Hcounts.
  { intros k c. by apply count_values_counts. }
  split_and!; [done..| |].
  - intros k c Hin. rewrite (Hcounts k c Hin). split; [done|].
    apply occurrences_present, Hkeys.
    by apply (list_elem_of_fmap_2 fst) in Hin.
  - rewrite (entries_of_keys (λ k, occurrences k v) (count_values v) Hcounts)
      at 1.
    rewrite <-list_fmap_compose.
    change (snd ∘ (λ k, (k, occurrences k v))) with (λ k, occurrences k v).
    rewrite (sum_occurrences _ v Hnd), filter_all; [done|].
    intros y Hy. by apply Hkeys.
Qed.

Lemma count_values_invariant_witness :
  sum_list (count_values (O := link_hashed 5) [0; 1; 5; 1; 5]).*2 = 5.
Proof.
  apply (count_values_invariant (link_hashed 5) [0; 1; 5; 1; 5]).
  vm_compute. discriminate.
Defined.

(** X8. The order of the map matters for ties only: when one value occurs
    more often than every other value of the vector, [calculate_mode]
    returns it, converted to [int], whatever the iteration order of the
    map. *)
Theorem calculate_mode_unique_maximum (O : MapOrder) `{!Lawful O}
    (v : list Z) (k : Z) :
  counts_fit v → k ∈ v →
  (∀ x, x ∈ v → x ≠ k → occurrences x v < occurrences k v) →
  calculate_mode v = Value (wrap32 k).
Proof.
  intros Hfit Hk Hmax.
  destruct (calculate_mode_winner_counts v) as (k' & _ & _ & _ & -> & Hk' & Hmax' & _);
    [intros ->; by apply elem_of_nil in Hk | done |].
  destruct (decide (k' = k)) as [->|Hne]; [done|].
  specialize (Hmax k' Hk' Hne). specialize (Hmax' k Hk). lia.
Qed.

Lemma calculate_mode_unique_maximum_witness :
  calculate_mode (O := link_back) [4; 9; 4] = Value (wrap32 4).
Proof.
  apply (calculate_mode_unique_maximum link_back [4; 9; 4] 4).
  - vm_compute. discriminate.
  - left.
  - intros x Hx Hne.
    repeat (apply elem_of_cons in Hx as [->|Hx]); [done| |done|].
    + reflexivity.
    + by apply elem_of_nil in Hx.
Defined.

(** X9. The mode of a non-empty vector whose samples are all equal to [k]
    is [k] converted to [int], for every length and every order of the
    map. *)
Theorem calculate_mode_constant (O : MapOrder) `{!Lawful O} (n : nat) (k : Z) :
  (0 < n)%nat → calculate_mode (replicate n k) = Value (wrap32 k).
Proof.
  intros Hn.
  destruct (calculate_mode_winner (replicate n k))
    as (k' & _ & _ & _ & _ & -> & Hk' & _).
  { destruct n; [lia | done]. }
  by apply elem_of_replicate in Hk' as [-> _].
Qed.

Lemma calculate_mode_constant_witness :
  calculate_mode (O := link_front) (replicate 3 16666666) = Value (wrap32 16666666).
Proof. apply (calculate_mode_constant link_front). lia. Defined.

Lemma wrap32_fixed z : wrap32 z = z ↔ in_int32 z.
Proof.
  split; [|apply wrap32_id].
  intros <-. apply wrap32_range.
Qed.

(** X10. On a non-empty vector whose counts fit, [calculate_mode] selects
    a value of the vector with the largest number of occurrences and
    returns it converted to [int]; the result is that value itself exactly
    when the value fits in an [int]. *)
Theorem calculate_mode_exact (O : MapOrder) `{!Lawful O} (v : list Z) :
  v ≠ [] → counts_fit v →
  ∃ k, k ∈ v
       ∧ (∀ x, x ∈ v → occurrences x v <= occurrences k v)
       ∧ calculate_mode v = Value (wrap32 k)
       ∧ (calculate_mode v = Value k ↔ in_int32 k).
Proof.
  intros Hne Hfit.
  destruct (calculate_mode_winner_counts v Hne Hfit)
    as (k & _ & _ & _ & Hr & Hk & Hmax & _).
  exists k. split_and!; [done..|].
  rewrite Hr, <-wrap32_fixed. split; [by intros [= ?] | by intros ->].
Qed.

Lemma calculate_mode_exact_witness :
  ∃ k, k ∈ [5; 5; 7] ∧ calculate_mode (O := link_front) [5; 5; 7] = Value (wrap32 k).
Proof.
  destruct (calculate_mode_exact link_front [5; 5; 7]) as (k & Hk & _ & Hr & _).
  - discriminate.
  - vm_compute. discriminate.
  - by exists k.
Defined.

(** ** max_element *)

Lemma max_element_from_member {A : Type} (comp : A → A → bool)
    (largest : A) (l : list A) :
  max_element_from comp largest l ∈ largest :: l.
Proof.
  revert largest. induction l as [|x l IH]; intros largest; simpl.
  - left.
  - destruct (comp largest x).
    + right. apply IH.
    + specialize (IH largest). apply elem_of_cons in IH as [->|IH].
      * left.
      * right. by right.
Qed.

(** X11. [max_element] returns the past-the-end iterator exactly on the
    empty range; otherwise, whatever the comparison, it returns an element
    of the range, and with [compareCounts] no entry of the range has a
    larger count than the one returned. *)
Theorem max_element_in_range (comp : Z * Z → Z * Z → bool)
    (l : list (Z * Z)) (x : Z * Z) :
  (max_element comp l = None ↔ l = [])
  ∧ (max_element comp l = Some x → x ∈ l)
  ∧ (max_element compareCounts l = Some x → ∀ e, e ∈ l → e.2 <= x.2).
Proof.
  split_and!.
  - by destruct l.
  - destruct l as [|y l]; [done|]. intros [= <-]. apply max_element_from_member.
  - destruct l as [|y l]; [done|]. intros [= <-] e He.
    destruct (max_element_from_spec y l) as (l1 & l2 & Heq & Hl1 & Hl2 & _).
    rewrite Heq in He.
    apply elem_of_app in He as [He|[->|He]%elem_of_cons].
    + by apply Hl1.
    + lia.
    + apply Z.lt_le_incl. by apply Hl2.
Qed.

Lemma max_element_in_range_witness :
  (3, 2) ∈ [(1, 2); (3, 2); (4, 1)].
Proof.
  apply (max_element_in_range compareCounts [(1, 2); (3, 2); (4, 1)] (3, 2)).
  reflexivity.
Defined.

(** ** Two values in a chained table *)

(** X13. With two distinct samples, each occurring once, the chained table
    iterates the second key before the first, whatever its numbers of
    buckets and whether the keys share a bucket or not; [calculate_mode]
    then returns the first sample converted to [int], which is the first
    sample itself when it fits in an [int]. *)
Theorem calculate_mode_pair (sizes : list Z) (a b : Z) :
  a ≠ b →
  count_values (O := link_table sizes) [a; b] = [(b, 1); (a, 1)]
  ∧ calculate_mode (O := link_table sizes) [a; b] = Value (wrap32 a)
  ∧ (in_int32 a → calculate_mode (O := link_table sizes) [a; b] = Value a).
Proof.
  intros Hab.
  assert (count_values (O := link_table sizes) [a; b] = [(b, 1); (a, 1)]) as Hm.
  { unfold count_values, count_value. simpl fold_left.
    unfold subscript at 2. simpl has_key. cbv iota.
    replace (link (a, 0) []) with [(a, 0)].
    2:{ simpl. unfold link_growing. by destruct (_ =? _). }
    simpl increment. rewrite Z.eqb_refl.
    unfold subscript, has_key. simpl existsb.
    destruct (Z.eqb_spec a b) as [->|_]; [done|]. simpl orb. cbv iota.
    replace (link (b, 0) [(a, wrap32 (0 + 1))])
      with [(b, 0); (a, wrap32 (0 + 1))].
    2:{ simpl. unfold link_growing.
        replace (if buckets_for sizes (length [(a, wrap32 (0 + 1))])
                    =? buckets_for sizes (S (length [(a, wrap32 (0 + 1))]))
                 then [(a, wrap32 (0 + 1))]
                 else rehash (buckets_for sizes (S (length [(a, wrap32 (0 + 1))])))
                        [(a, wrap32 (0 + 1))])
          with [(a, wrap32 (0 + 1))] by (by destruct (_ =? _)).
        unfold link_bucket. simpl link_chain. by destruct (_ =? _). }
    simpl increment. by rewrite Z.eqb_refl. }
  split_and!; [done| |].
  - unfold calculate_mode. by rewrite Hm.
  - intros Ha. unfold calculate_mode. rewrite Hm.
    unfold mode_of_counts. simpl. by rewrite (wrap32_id a Ha).
Qed.

Lemma calculate_mode_pair_witness :
  calculate_mode (O := link_gnu) [13; 0] = Value 13.
Proof.
  apply (calculate_mode_pair gnu_sizes 13 0); [discriminate|].
  vm_compute. split; discriminate.
Defined.
